(** * LabHash: the [custom::unordered_set] of [hash.h]

    A shallow embedding of the chained hash set of [src/hash.h] and of its two
    iterator classes, followed by the properties of the operations.

    - [size_t] values are [Z] with the conversions written out;
    - the C++ [float] is IEEE-754 binary32, computed with the Standard
      Library's executable specification of floating-point numbers;
    - the bucket array [custom::vector<custom::list<T>>] is a [list (list T)];
    - operations whose C++ behaviour is undefined on some input (a division
      by zero, a float that does not fit [size_t]) return [option]. *)

From Stdlib Require Import ZArith List Bool Lia Permutation PeanoNat.
From Stdlib Require Import QArith Qround.
From Stdlib Require Import Floats.SpecFloat.
Import ListNotations.

Open Scope Z_scope.

(* ================================================================= *)
(** ** Single-precision floating point *)

Module Float32.

Definition prec : Z := 24.
Definition emax : Z := 128.

Definition float : Type := spec_float.

(** Conversion of an integer to [float]: round to nearest, ties to even. *)
Definition of_Z (n : Z) : float := binary_normalize prec emax n 0 false.

(** The [/] of two floats. *)
Definition div (x y : float) : float := SFdiv prec emax x y.

(** [x <= y] on floats (false as soon as one side is a NaN). *)
Definition leb (x y : float) : bool := SFleb x y.

(** [std::ceil(float)]: the least integral float that is not below [x].
    A finite float with a non-negative exponent is already integral;
    otherwise its magnitude is below [2^24] and so is the result. *)
Definition ceil (x : float) : float :=
  match x with
  | S754_finite s m e =>
      if 0 <=? e then x
      else
        let d := 2 ^ (- e) in
        let q := Z.pos m / d in
        let r := Z.pos m mod d in
        if s then binary_normalize prec emax (- q) 0 true
        else binary_normalize prec emax (if r =? 0 then q else q + 1) 0 false
  | _ => x
  end.

(** The integer obtained by discarding the fractional part, when there is
    one (no integer for infinities and NaN). *)
Definition trunc (x : float) : option Z :=
  match x with
  | S754_zero _ => Some 0
  | S754_finite s m e =>
      let a := if 0 <=? e then Z.pos m * 2 ^ e else Z.pos m / 2 ^ (- e) in
      Some (if s then - a else a)
  | _ => None
  end.

(** The cast [(size_t)x]: defined when the truncated value fits 64 bits. *)
Definition to_size_t (x : float) : option Z :=
  match trunc x with
  | Some z => if (0 <=? z) && (z <? 2 ^ 64) then Some z else None
  | None => None
  end.

(** The exact rational value of a finite float. *)
Definition to_Q (x : float) : option Q :=
  match x with
  | S754_zero _ => Some 0%Q
  | S754_finite s m e =>
      Some (inject_Z (if s then Z.neg m else Z.pos m) * Qpower 2 e)%Q
  | _ => None
  end.

Definition zero : float := S754_zero false.
Definition one : float := of_Z 1.
(** The literals [0.75], [0.875] and [1.125], all exact in binary32. *)
Definition f0_75 : float := div (of_Z 3) (of_Z 4).
Definition f0_875 : float := div (of_Z 7) (of_Z 8).
Definition f1_125 : float := div (of_Z 9) (of_Z 8).

End Float32.

(* ================================================================= *)
(** ** The collaborators: bucket array and bucket list *)

(** Modelled from the spec: [vector.h] and [list.h] are not in the source
    tree.  The spec fixes their contract: the bucket array supports
    construction at a given size, index access, a size query and a
    whole-structure move; the bucket list supports an empty check, a size,
    append-to-end, forward begin/end iteration and find-by-value.  Positions
    are modelled the way the calls in [hash.h] use them: a vector iterator
    is built from an index into the array ([iterator(iBucket, buckets)]) or
    default-constructed, a list iterator designates one stored element or
    is the past-the-end position, which a default-constructed one equals. *)
Inductive vector_iterator : Type :=
  | VNull                      (* default-constructed *)
  | VAt (i : nat).             (* position [i] of the array; [size] is end() *)

(** Modelled from the spec: the list iterator of the missing [list.h]; an
    element is designated by the bucket that holds it and its rank there. *)
Inductive list_iterator : Type :=
  | LEnd                               (* past-the-end, also the default one *)
  | LAt (iBucket : nat) (k : nat).     (* the [k]-th element of a bucket *)

Definition vector_iterator_eqb (a b : vector_iterator) : bool :=
  match a, b with
  | VNull, VNull => true
  | VAt i, VAt j => Nat.eqb i j
  | _, _ => false
  end.

Definition list_iterator_eqb (a b : list_iterator) : bool :=
  match a, b with
  | LEnd, LEnd => true
  | LAt i k, LAt j l => Nat.eqb i j && Nat.eqb k l
  | _, _ => false
  end.

Section Collaborators.
Context {T : Type}.
Variable T_eq_dec : forall x y : T, {x = y} + {x <> y}.

(** [custom::vector]: [end()], [++] and [*] of its iterator. *)
Definition vector_end (v : list (list T)) : vector_iterator := VAt (length v).

Definition vector_iterator_next (it : vector_iterator) : vector_iterator :=
  match it with
  | VNull => VNull
  | VAt i => VAt (S i)
  end.

Definition vector_iterator_deref (v : list (list T)) (it : vector_iterator)
  : list T :=
  match it with
  | VNull => []
  | VAt i => nth i v []
  end.

(** The bucket a vector iterator designates, as an index (the identity of
    the list it dereferences to). *)
Definition vector_iterator_index (it : vector_iterator) : nat :=
  match it with
  | VNull => 0%nat
  | VAt i => i
  end.

(** [custom::list]: [begin()], [end()], [find(t)] of the list stored at
    index [iBucket], and [++] of its iterator. *)
Definition list_begin (iBucket : nat) (l : list T) : list_iterator :=
  match l with
  | [] => LEnd
  | _ :: _ => LAt iBucket 0
  end.

Definition list_end : list_iterator := LEnd.

Fixpoint list_find_from (iBucket k : nat) (l : list T) (t : T)
  : list_iterator :=
  match l with
  | [] => LEnd
  | x :: l' =>
      if T_eq_dec x t then LAt iBucket k
      else list_find_from iBucket (S k) l' t
  end.

Definition list_find (iBucket : nat) (l : list T) (t : T) : list_iterator :=
  list_find_from iBucket 0 l t.

Definition list_iterator_next (v : list (list T)) (it : list_iterator)
  : list_iterator :=
  match it with
  | LEnd => LEnd
  | LAt b k =>
      if (S k <? length (nth b v []))%nat then LAt b (S k) else LEnd
  end.

Definition list_iterator_deref (v : list (list T)) (it : list_iterator)
  : option T :=
  match it with
  | LEnd => None
  | LAt b k => nth_error (nth b v []) k
  end.

(** [v[i].push_back(x)]. *)
Fixpoint push_back_at (v : list (list T)) (i : nat) (x : T)
  : list (list T) :=
  match v, i with
  | [], _ => []
  | b :: v', O => (b ++ [x]) :: v'
  | b :: v', S i' => b :: push_back_at v' i' x
  end.

Definition list_empty (l : list T) : bool :=
  match l with
  | [] => true
  | _ :: _ => false
  end.

End Collaborators.

(* ================================================================= *)
(** ** [unordered_set] and its iterators *)

(** The data members of [unordered_set<T>]. *)
Record unordered_set (T : Type) : Type := mk_unordered_set {
  buckets : list (list T);          (* each bucket in the hash *)
  numElements : Z;                  (* int: number of elements *)
  maxLoadFactor : Float32.float     (* ratio signifying a rehash *)
}.
Arguments mk_unordered_set {T} _ _ _.
Arguments buckets {T} _.
Arguments numElements {T} _.
Arguments maxLoadFactor {T} _.

(** The data members of [unordered_set::iterator]. *)
Record iterator : Type := mk_iterator {
  itVectorEnd : vector_iterator;
  itVector : vector_iterator;
  itList : list_iterator
}.

(** The data member of [unordered_set::local_iterator]. *)
Record local_iterator : Type := mk_local_iterator {
  local_itList : list_iterator
}.

(** [iterator()]: all three members default-constructed. *)
Definition iterator_default : iterator := mk_iterator VNull VNull LEnd.

(** [iterator::operator==]. *)
Definition iterator_eqb (a b : iterator) : bool :=
  vector_iterator_eqb (itVectorEnd a) (itVectorEnd b)
  && vector_iterator_eqb (itVector a) (itVector b)
  && list_iterator_eqb (itList a) (itList b).

Section UnorderedSet.
Context {T : Type}.
Variable hash : T -> Z.                       (* Hash()(t), a size_t *)
Variable T_eq_dec : forall x y : T, {x = y} + {x <> y}.   (* EqPred *)

Local Abbreviation set := (unordered_set T).

(** [unordered_set()] and [unordered_set(size_t numBuckets)]. *)
Definition make (numBuckets : Z) : set :=
  mk_unordered_set (repeat [] (Z.to_nat numBuckets)) 0 Float32.one.

Definition default_set : set := make 8.

(** Status. *)
Definition size (s : set) : Z := numElements s mod 2 ^ 64.

Definition empty (s : set) : bool := size s =? 0.

Definition bucket_count (s : set) : Z := Z.of_nat (length (buckets s)).


(** [load_factor]: [size() / bucket_count()] is a quotient of two
    [size_t], converted to [float] afterwards. *)
Definition load_factor (s : set) : option Float32.float :=
  if bucket_count s =? 0 then None
  else Some (Float32.of_Z (size s / bucket_count s)).

Definition max_load_factor (s : set) : Float32.float := maxLoadFactor s.

Definition set_max_load_factor (s : set) (m : Float32.float) : set :=
  mk_unordered_set (buckets s) (numElements s) m.

(** [min_buckets_required]: [(size_t)std::ceil(num / maxLoadFactor)];
    [num] is converted to [float] for the division. *)
Definition min_buckets_required (s : set) (num : Z) : option Z :=
  Float32.to_size_t
    (Float32.ceil (Float32.div (Float32.of_Z num) (maxLoadFactor s))).

(** [bucket]: [Hash()(t) % bucket_count()]. *)
Definition bucket (s : set) (t : T) : option nat :=
  if bucket_count s =? 0 then None
  else Some (Z.to_nat (hash t mod bucket_count s)).

(** [end()]. *)
Definition end_ (s : set) : iterator :=
  mk_iterator (vector_end (buckets s)) (vector_end (buckets s)) list_end.

(** [begin()]: the first element of the first bucket that is not empty. *)
Fixpoint begin_from (s : set) (i : nat) (rest : list (list T)) : iterator :=
  match rest with
  | [] => end_ s
  | b :: rest' =>
      if negb (list_empty b)
      then mk_iterator (vector_end (buckets s)) (VAt i) (list_begin i b)
      else begin_from s (S i) rest'
  end.

Definition begin_ (s : set) : iterator := begin_from s 0 (buckets s).

(** [begin(iBucket)] and [end(iBucket)]. *)
Definition local_begin (s : set) (iBucket : nat) : local_iterator :=
  mk_local_iterator (list_begin iBucket (nth iBucket (buckets s) [])).

Definition local_end (s : set) (iBucket : nat) : local_iterator :=
  mk_local_iterator list_end.

(** [find]. *)
Definition find (s : set) (t : T) : option iterator :=
  match bucket s t with
  | None => None
  | Some iBucket =>
      let itList := list_find T_eq_dec iBucket (nth iBucket (buckets s) []) t in
      if negb (list_iterator_eqb itList list_end)
      then Some (mk_iterator (vector_end (buckets s)) (VAt iBucket) itList)
      else Some (end_ s)
  end.

(** [iterator::operator*]. *)
Definition deref (s : set) (it : iterator) : option T :=
  list_iterator_deref (buckets s) (itList it).

(** [rehash]. *)
Definition rehash_step (numBuckets : Z) (newBuckets : list (list T)) (x : T)
  : list (list T) :=
  let newIndex := Z.to_nat (hash x mod numBuckets) in
  push_back_at newBuckets newIndex x.

Definition rehash (s : set) (numBuckets : Z) : set :=
  if numBuckets <=? bucket_count s then s
  else
    let newBuckets :=
      fold_left
        (fun nb bucket => fold_left (rehash_step numBuckets) bucket nb)
        (buckets s) (repeat [] (Z.to_nat numBuckets)) in
    mk_unordered_set newBuckets (numElements s) (maxLoadFactor s).

(** [reserve]. *)
Definition reserve (s : set) (num : Z) : option set :=
  match min_buckets_required s num with
  | None => None
  | Some c => Some (rehash s c)
  end.

(** [clear]. *)
Definition clear (s : set) : set :=
  mk_unordered_set (map (fun _ => []) (buckets s)) 0 (maxLoadFactor s).

(** [insert(const T&)]: the body in force returns a default-constructed
    iterator paired with [true]; the set is not touched. *)
Definition insert (s : set) (t : T) : set * (iterator * bool) :=
  (s, (iterator_default, true)).

(** [insert(initializer_list)]: an empty body. *)
Definition insert_list (s : set) (il : list T) : set := s.

(** [erase]: the body in force returns a default-constructed iterator;
    the set is not touched. *)
Definition erase (s : set) (t : T) : set * iterator :=
  (s, iterator_default).

(** A run of [insert] calls, results dropped. *)
Definition insert_all (s : set) (l : list T) : set :=
  fold_left (fun s t => fst (insert s t)) l s.

End UnorderedSet.

Section Iterators.
Context {T : Type}.

(** The loop that advances [itVector] while it differs from [itVectorEnd]
    and designates an empty bucket, with a bound on the number of turns. *)
Fixpoint skip_empty (fuel : nat) (v : list (list T))
         (itV itVEnd : vector_iterator) : vector_iterator :=
  match fuel with
  | O => itV
  | S fuel' =>
      if negb (vector_iterator_eqb itV itVEnd)
         && list_empty (vector_iterator_deref v itV)
      then skip_empty fuel' v (vector_iterator_next itV) itVEnd
      else itV
  end.

(** [iterator::operator++()], the prefix form; [v] is the bucket array the
    iterator points into.  The loop runs at most once per bucket. *)
Definition incr (v : list (list T)) (it : iterator) : iterator :=
  if vector_iterator_eqb (itVector it) (itVectorEnd it) then it
  else
    let itList' := list_iterator_next v (itList it) in
    if negb (list_iterator_eqb itList' list_end)
    then mk_iterator (itVectorEnd it) (itVector it) itList'
    else
      let itVector' :=
        skip_empty (length v) v (vector_iterator_next (itVector it))
                   (itVectorEnd it) in
      if negb (vector_iterator_eqb itVector' (itVectorEnd it))
      then mk_iterator (itVectorEnd it) itVector'
             (list_begin (vector_iterator_index itVector')
                         (vector_iterator_deref v itVector'))
      else mk_iterator (itVectorEnd it) itVector' itList'.

(** [iterator::operator++(int postfix)]: copies [*this], increments the
    [int] argument, returns the copy.  The result is the pair of the
    iterator after the call and the iterator returned. *)
Definition post_incr (it : iterator) (postfix : Z) : iterator * iterator :=
  let temp := it in
  let postfix' := postfix + 1 in
  (it, temp).

(** [local_iterator::operator++()]. *)
Definition local_incr (v : list (list T)) (it : local_iterator)
  : local_iterator :=
  mk_local_iterator (list_iterator_next v (local_itList it)).

(** [local_iterator::operator++(int postfix)]: [return *this]. *)
Definition local_post_incr (it : local_iterator) (postfix : Z)
  : local_iterator * local_iterator :=
  (it, it).

End Iterators.

(* ================================================================= *)
(** ** Vocabulary of the statements *)

Section Vocabulary.
Context {T : Type}.
Variable hash : T -> Z.

(** The iterator positioned at the [k]-th element of bucket [b], as
    [find] builds it: [iterator(buckets.end(), iterator(b, buckets), p)]. *)
Definition at_element (s : unordered_set T) (b k : nat) : iterator :=
  mk_iterator (vector_end (buckets s)) (VAt b) (LAt b k).

(** Every element of bucket [i] hashes to [i] modulo [n]. *)
Definition well_placed (n : Z) (v : list (list T)) : Prop :=
  forall i b e, nth_error v i = Some b -> In e b -> Z.of_nat i = hash e mod n.

(** All the elements of the set, in traversal order. *)
Definition elements (s : unordered_set T) : list T := concat (buckets s).

(** The bound of the specification's [reserve]: [ceil(n / maxLoadFactor)]
    over the rationals, with the exact value of [maxLoadFactor]. *)
Definition spec_min_buckets (s : unordered_set T) (n : Z) : option Z :=
  match Float32.to_Q (maxLoadFactor s) with
  | Some q => Some (Qceiling (inject_Z n / q))
  | None => None
  end.

End Vocabulary.

(* ================================================================= *)
(** ** The instance [unordered_set<int>] *)

Module IntSet.

(** [std::hash<int>] of the usual standard libraries: the value itself,
    converted to [size_t]. *)
Definition hash (x : Z) : Z := x mod 2 ^ 64.

Definition default_set : unordered_set Z := default_set.

(** Eight buckets holding the single element [5] in bucket [5 % 8]. *)
Definition set_with_5 : unordered_set Z :=
  mk_unordered_set [[]; []; []; []; []; [5]; []; []] 1 Float32.one.

(** Eight buckets holding [0..6], each in its own bucket. *)
Definition set_0_to_6 : unordered_set Z :=
  mk_unordered_set [[0]; [1]; [2]; [3]; [4]; [5]; [6]; []] 7 Float32.one.

(** Eight buckets holding [0..8]. *)
Definition set_0_to_8 : unordered_set Z :=
  mk_unordered_set [[0; 8]; [1]; [2]; [3]; [4]; [5]; [6]; [7]] 9 Float32.one.

End IntSet.

(* ================================================================= *)
(** ** Comparison and assignment of the iterators, list assignment *)

(** Modelled from the spec: [operator!=] of the vector and list iterators
    of the missing [vector.h] and [list.h], the negation of their
    [operator==]. *)
Definition vector_iterator_neqb (a b : vector_iterator) : bool :=
  negb (vector_iterator_eqb a b).

Definition list_iterator_neqb (a b : list_iterator) : bool :=
  negb (list_iterator_eqb a b).

(** [iterator::operator!=]. *)
Definition iterator_neqb (a b : iterator) : bool :=
  vector_iterator_neqb (itVectorEnd a) (itVectorEnd b)
  || vector_iterator_neqb (itVector a) (itVector b)
  || list_iterator_neqb (itList a) (itList b).

(** [iterator::operator=]: the three members are assigned one by one. *)
Definition iterator_assign (this rhs : iterator) : iterator :=
  let this1 := mk_iterator (itVectorEnd rhs) (itVector this) (itList this) in
  let this2 := mk_iterator (itVectorEnd this1) (itVector this1) (itList rhs) in
  mk_iterator (itVectorEnd this2) (itVector rhs) (itList this2).

(** [local_iterator::operator==] and [operator!=]: [rhs.itList] is the left
    operand. *)
Definition local_iterator_eqb (this rhs : local_iterator) : bool :=
  list_iterator_eqb (local_itList rhs) (local_itList this).

Definition local_iterator_neqb (this rhs : local_iterator) : bool :=
  list_iterator_neqb (local_itList rhs) (local_itList this).

(** [local_iterator::operator=]: the member is assigned only when it
    differs. *)
Definition local_iterator_assign (this rhs : local_iterator) : local_iterator :=
  if list_iterator_neqb (local_itList rhs) (local_itList this)
  then mk_local_iterator (local_itList rhs)
  else this.

Section MoreOperations.
Context {T : Type}.
Variable hash : T -> Z.

(** [local_iterator::operator*]. *)
Definition local_deref (s : unordered_set T) (it : local_iterator) : option T :=
  list_iterator_deref (buckets s) (local_itList it).

(** [operator=(const std::initializer_list<T>&)]: [clear()], then
    [reserve(il.size())], then one [insert] per value. *)
Definition assign_list (s : unordered_set T) (il : list T)
  : option (unordered_set T) :=
  match reserve hash (clear s) (Z.of_nat (length il)) with
  | None => None
  | Some s1 => Some (insert_all s1 il)
  end.

End MoreOperations.

(* ================================================================= *)
(** ** Facts about the collaborators *)

Section CollaboratorFacts.
Context {T : Type}.
Variable T_eq_dec : forall x y : T, {x = y} + {x <> y}.

Lemma push_back_at_length (v : list (list T)) (i : nat) (x : T) :
  length (push_back_at v i x) = length v.
Proof.
  revert i; induction v as [|b v IH]; intros [|i]; simpl; auto.
Qed.

Lemma push_back_at_concat (v : list (list T)) (i : nat) (x : T) :
  (i < length v)%nat ->
  Permutation (concat (push_back_at v i x)) (x :: concat v).
Proof.
  revert i; induction v as [|b v IH]; intros [|i] Hi; simpl in *; try lia.
  - rewrite <- app_assoc. simpl.
    symmetry. apply Permutation_middle.
  - rewrite (IH i) by lia.
    symmetry. apply Permutation_middle.
Qed.

Lemma push_back_at_lookup (v : list (list T)) (i j : nat) (x : T) (b : list T) :
  nth_error (push_back_at v i x) j = Some b ->
  (j = i /\ exists b0, nth_error v j = Some b0 /\ b = b0 ++ [x])
  \/ (j <> i /\ nth_error v j = Some b).
Proof.
  revert i j; induction v as [|c v IH]; intros [|i] [|j]; simpl; intros H;
    try discriminate.
  - injection H as <-. left. split; [reflexivity|]. now exists c.
  - right. split; [lia | assumption].
  - right. split; [lia | assumption].
  - destruct (IH _ _ H) as [[-> Hb] | [Hne Hb]].
    + left. split; [reflexivity | assumption].
    + right. split; [lia | assumption].
Qed.

Lemma fold_left_buckets {A : Type} (f : A -> T -> A) (v : list (list T)) (a : A) :
  fold_left (fun acc bucket => fold_left f bucket acc) v a
  = fold_left f (concat v) a.
Proof.
  revert a; induction v as [|b v IH]; intros a; simpl.
  - reflexivity.
  - rewrite fold_left_app. apply IH.
Qed.

Lemma concat_repeat_nil (n : nat) : concat (repeat (@nil T) n) = [].
Proof. induction n; simpl; auto. Qed.

Lemma nth_error_repeat_nil (n i : nat) (b : list T) :
  nth_error (repeat [] n) i = Some b -> b = [].
Proof.
  intros H. apply nth_error_In, repeat_spec in H. assumption.
Qed.

End CollaboratorFacts.

(* ================================================================= *)
(** ** Rehashing *)

Section RehashFacts.
Context {T : Type}.
Variable hash : T -> Z.

Lemma rehash_index_bound (n : Z) (x : T) :
  0 < n -> (Z.to_nat (hash x mod n) < Z.to_nat n)%nat.
Proof.
  intros Hn. pose proof (Z.mod_pos_bound (hash x) n Hn). lia.
Qed.

Lemma rehash_step_well_placed (n : Z) (v : list (list T)) (x : T) :
  0 < n -> well_placed hash n v -> well_placed hash n (rehash_step hash n v x).
Proof.
  intros Hn Hv i b e Hb He. unfold rehash_step in Hb.
  destruct (push_back_at_lookup _ _ _ _ _ Hb) as [[-> (b0 & Hb0 & ->)] | [_ Hb0]].
  - apply in_app_or in He. destruct He as [He | [<- | []]].
    + exact (Hv _ _ _ Hb0 He).
    + pose proof (Z.mod_pos_bound (hash x) n Hn). lia.
  - exact (Hv _ _ _ Hb0 He).
Qed.

Lemma rehash_fold (n : Z) (l : list T) :
  0 < n ->
  forall v : list (list T),
    length v = Z.to_nat n ->
    well_placed hash n v ->
    length (fold_left (rehash_step hash n) l v) = length v
    /\ well_placed hash n (fold_left (rehash_step hash n) l v)
    /\ Permutation (concat (fold_left (rehash_step hash n) l v)) (concat v ++ l).
Proof.
  intros Hn. induction l as [|x l IH]; intros v Hlen Hv; simpl.
  - rewrite app_nil_r. auto.
  - assert (Hlen1 : length (rehash_step hash n v x) = Z.to_nat n).
    { unfold rehash_step. now rewrite push_back_at_length. }
    destruct (IH _ Hlen1 (rehash_step_well_placed n v x Hn Hv)) as (L & W & P).
    repeat split.
    + rewrite L. unfold rehash_step. apply push_back_at_length.
    + exact W.
    + rewrite P. unfold rehash_step.
      rewrite push_back_at_concat
        by (rewrite Hlen; apply rehash_index_bound; exact Hn).
      simpl. apply Permutation_middle.
Qed.

Lemma rehash_noop (s : unordered_set T) (n : Z) :
  n <= bucket_count s -> rehash hash s n = s.
Proof.
  intros H. unfold rehash. apply Z.leb_le in H. now rewrite H.
Qed.

Lemma rehash_grow (s : unordered_set T) (n : Z) :
  bucket_count s < n ->
  bucket_count (rehash hash s n) = n
  /\ well_placed hash n (buckets (rehash hash s n))
  /\ Permutation (elements s) (elements (rehash hash s n))
  /\ numElements (rehash hash s n) = numElements s
  /\ maxLoadFactor (rehash hash s n) = maxLoadFactor s.
Proof.
  intros H.
  assert (Hn : 0 < n) by (unfold bucket_count in H; lia).
  unfold rehash. apply Z.leb_gt in H. rewrite H.
  unfold bucket_count, elements. simpl.
  rewrite fold_left_buckets.
  destruct (rehash_fold n (concat (buckets s)) Hn (repeat [] (Z.to_nat n)))
    as (L & W & P).
  - apply repeat_length.
  - intros i b e Hb He. apply nth_error_repeat_nil in Hb. subst b. destruct He.
  - rewrite L, repeat_length. rewrite concat_repeat_nil in P. simpl in P.
    repeat split; auto.
    + lia.
    + symmetry. exact P.
Qed.

Lemma bucket_count_rehash (s : unordered_set T) (n : Z) :
  bucket_count (rehash hash s n) = Z.max (bucket_count s) n.
Proof.
  destruct (Z.le_gt_cases n (bucket_count s)) as [H | H].
  - rewrite rehash_noop by assumption. lia.
  - destruct (rehash_grow s n H) as (-> & _). lia.
Qed.

(** C6: [rehash(n)] with [n <= bucket_count()] leaves the set as it is;
    with [n > bucket_count()] the bucket count becomes [n], every element
    lies in bucket [hash(e) % n], the elements are those of before (as a
    multiset, hence also by membership) and [size()] is unchanged. *)
Theorem rehash_spec (s : unordered_set T) (n : Z) :
  (n <= bucket_count s -> rehash hash s n = s)
  /\ (bucket_count s < n ->
      bucket_count (rehash hash s n) = n
      /\ (forall i b e,
            nth_error (buckets (rehash hash s n)) i = Some b ->
            In e b -> Z.of_nat i = hash e mod n)
      /\ Permutation (elements s) (elements (rehash hash s n))
      /\ (forall e, In e (elements s) <-> In e (elements (rehash hash s n)))
      /\ size (rehash hash s n) = size s).
Proof.
  split.
  - apply rehash_noop.
  - intros H. destruct (rehash_grow s n H) as (C & W & P & N & _).
    repeat split; auto.
    + intros He. eapply Permutation_in; eauto.
    + intros He. eapply Permutation_in; [symmetry|]; eauto.
    + unfold size. now rewrite N.
Qed.

End RehashFacts.

(* ================================================================= *)
(** ** Advancing the iterators *)

Section IteratorFacts.
Context {T : Type}.

Lemma list_empty_nil (l : list T) : list_empty l = true <-> l = [].
Proof. destruct l; simpl; split; intros H; congruence. Qed.

Lemma vector_iterator_eqb_eq (a b : vector_iterator) :
  vector_iterator_eqb a b = true <-> a = b.
Proof.
  destruct a as [|i], b as [|j]; simpl; split; intros H;
    try congruence; try discriminate.
  - apply Nat.eqb_eq in H. now subst.
  - injection H as ->. apply Nat.eqb_refl.
Qed.

Lemma vector_iterator_eqb_VAt (i j : nat) :
  vector_iterator_eqb (VAt i) (VAt j) = Nat.eqb i j.
Proof. reflexivity. Qed.

(** The loop stops on the first bucket at or after [i] that holds an
    element, or on the end position, whichever comes first. *)
Lemma skip_empty_stop (v : list (list T)) (e : nat) :
  forall (d fuel i b' : nat),
    b' = (i + d)%nat -> (d <= fuel)%nat -> (b' <= e)%nat ->
    (forall j, (i <= j < b')%nat -> nth j v [] = []) ->
    b' = e \/ nth b' v [] <> [] ->
    skip_empty fuel v (VAt i) (VAt e) = VAt b'.
Proof.
  induction d as [|d IH]; intros fuel i b' Hb Hfuel Hle Hempty Hstop.
  - replace b' with i in * by lia.
    destruct fuel as [|fuel]; simpl; [reflexivity|].
    destruct Hstop as [-> | Hne].
    + now rewrite Nat.eqb_refl.
    + destruct (nth i v []) eqn:E; [congruence|].
      simpl. now rewrite andb_false_r.
  - destruct fuel as [|fuel]; [lia|]. simpl.
    assert (Hie : Nat.eqb i e = false) by (apply Nat.eqb_neq; lia).
    rewrite Hie, (Hempty i) by lia. simpl.
    apply (IH fuel (S i) b'); try lia.
    + intros j Hj. apply Hempty. lia.
    + exact Hstop.
Qed.

(** C9: the prefix [++] of the global iterator.  (1) At end, nothing
    changes.  (2) From an element that has a successor in its bucket, the
    iterator moves to that successor.  (3) From the last element of a
    bucket, it moves to the first element of the next bucket that is not
    empty, the empty ones in between being skipped.  (4) When no such
    bucket exists it becomes the end iterator. *)
Theorem incr_state_machine (s : unordered_set T) :
  (forall it, itVector it = itVectorEnd it -> incr (buckets s) it = it)
  /\ incr (buckets s) (end_ s) = end_ s
  /\ (forall b k,
        (b < length (buckets s))%nat ->
        (S k < length (nth b (buckets s) []))%nat ->
        incr (buckets s) (at_element s b k) = at_element s b (S k))
  /\ (forall b k b',
        (b < b' < length (buckets s))%nat ->
        S k = length (nth b (buckets s) []) ->
        (forall j, (b < j < b')%nat -> nth j (buckets s) [] = []) ->
        nth b' (buckets s) [] <> [] ->
        incr (buckets s) (at_element s b k) = at_element s b' 0)
  /\ (forall b k,
        (b < length (buckets s))%nat ->
        S k = length (nth b (buckets s) []) ->
        (forall j, (b < j < length (buckets s))%nat ->
                   nth j (buckets s) [] = []) ->
        incr (buckets s) (at_element s b k) = end_ s).
Proof.
  set (v := buckets s).
  assert (Hend : forall it, itVector it = itVectorEnd it -> incr v it = it).
  { intros it H. unfold incr.
    rewrite (proj2 (vector_iterator_eqb_eq _ _) H). reflexivity. }
  split; [exact Hend|].
  split; [apply Hend; reflexivity|].
  split; [|split].
  - intros b k Hb Hk. unfold incr, at_element, vector_end. simpl. fold v.
    assert (E : Nat.eqb b (length v) = false) by (apply Nat.eqb_neq; lia).
    rewrite E.
    assert (L : (S k <? length (nth b v []))%nat = true)
      by (apply Nat.ltb_lt; exact Hk).
    rewrite L. reflexivity.
  - intros b k b' Hb Hk Hempty Hne.
    unfold incr, at_element, vector_end. simpl. fold v.
    assert (E : Nat.eqb b (length v) = false) by (apply Nat.eqb_neq; lia).
    rewrite E.
    assert (L : (S k <? length (nth b v []))%nat = false)
      by (apply Nat.ltb_ge; fold v in Hk; lia).
    rewrite L. simpl.
    rewrite (skip_empty_stop v (length v) (b' - S b) (length v) (S b) b');
      try lia.
    + simpl.
      assert (E' : Nat.eqb b' (length v) = false) by (apply Nat.eqb_neq; lia).
      rewrite E'. simpl.
      destruct (nth b' v []) eqn:Eb; [congruence | reflexivity].
    + intros j Hj. apply Hempty. lia.
    + right. exact Hne.
  - intros b k Hb Hk Hempty.
    unfold incr, at_element, end_, vector_end. simpl. fold v.
    assert (E : Nat.eqb b (length v) = false) by (apply Nat.eqb_neq; lia).
    rewrite E.
    assert (L : (S k <? length (nth b v []))%nat = false)
      by (apply Nat.ltb_ge; fold v in Hk; lia).
    rewrite L. simpl.
    rewrite (skip_empty_stop v (length v) (length v - S b) (length v)
                             (S b) (length v)); try lia.
    + simpl. rewrite Nat.eqb_refl. reflexivity.
    + intros j Hj. apply Hempty. lia.
Qed.

End IteratorFacts.

(* ================================================================= *)
(** ** Lookup *)

Section FindFacts.
Context {T : Type}.
Variable hash : T -> Z.
Variable T_eq_dec : forall x y : T, {x = y} + {x <> y}.

Lemma list_find_from_present (b : nat) (l : list T) (t : T) :
  In t l ->
  forall k, exists j,
    list_find_from T_eq_dec b k l t = LAt b (k + j)
    /\ nth_error l j = Some t.
Proof.
  induction l as [|x l IH]; intros Hin k; [destruct Hin|].
  simpl. destruct (T_eq_dec x t) as [-> | Hne].
  - exists 0%nat. rewrite Nat.add_0_r. auto.
  - destruct Hin as [-> | Hin]; [congruence|].
    destruct (IH Hin (S k)) as (j & E & N).
    exists (S j). rewrite E. split; [f_equal; lia | exact N].
Qed.

Lemma list_find_from_absent (b : nat) (l : list T) (t : T) :
  ~ In t l -> forall k, list_find_from T_eq_dec b k l t = LEnd.
Proof.
  induction l as [|x l IH]; intros Hin k; simpl; [reflexivity|].
  destruct (T_eq_dec x t) as [-> | Hne].
  - exfalso. apply Hin. now left.
  - apply IH. intros H. apply Hin. now right.
Qed.

Lemma bucket_defined (s : unordered_set T) (t : T) :
  0 < bucket_count s ->
  bucket hash s t = Some (Z.to_nat (hash t mod bucket_count s)).
Proof.
  intros H. unfold bucket.
  destruct (bucket_count s =? 0) eqn:E; [|reflexivity].
  apply Z.eqb_eq in E. lia.
Qed.

(** [find] on a set whose elements all lie in the bucket of their hash:
    a stored value is found, at a position that dereferences to it and
    differs from [end()]; a value that is not stored gives [end()]. *)
Lemma find_present (s : unordered_set T) (t : T) :
  0 < bucket_count s ->
  well_placed hash (bucket_count s) (buckets s) ->
  In t (elements s) ->
  exists k,
    find hash T_eq_dec s t
    = Some (at_element s (Z.to_nat (hash t mod bucket_count s)) k)
    /\ deref s (at_element s (Z.to_nat (hash t mod bucket_count s)) k) = Some t
    /\ iterator_eqb (at_element s (Z.to_nat (hash t mod bucket_count s)) k)
                    (end_ s) = false.
Proof.
  intros Hc Hw Hin. unfold elements in Hin.
  apply in_concat in Hin. destruct Hin as (b & Hb & Ht).
  destruct (In_nth_error _ _ Hb) as (i & Hi).
  pose proof (Hw _ _ _ Hi Ht) as Hidx.
  assert (Ei : Z.to_nat (hash t mod bucket_count s) = i) by lia.
  assert (Hnth : nth i (buckets s) [] = b) by (now apply nth_error_nth).
  destruct (list_find_from_present i b t Ht 0) as (k & Ek & Nk).
  exists k. unfold find. rewrite (bucket_defined s t Hc), Ei, Hnth.
  unfold list_find. rewrite Ek. simpl.
  repeat split.
  - unfold deref, at_element. simpl. now rewrite Hnth.
  - unfold iterator_eqb, at_element, end_. simpl. now rewrite andb_false_r.
Qed.

Lemma find_absent (s : unordered_set T) (t : T) :
  0 < bucket_count s ->
  ~ In t (elements s) ->
  find hash T_eq_dec s t = Some (end_ s).
Proof.
  intros Hc Hout. unfold find. rewrite (bucket_defined s t Hc).
  set (i := Z.to_nat (hash t mod bucket_count s)).
  assert (Hno : ~ In t (nth i (buckets s) [])).
  { intros Ht. apply Hout. unfold elements. apply in_concat.
    destruct (nth_in_or_default i (buckets s) []) as [Hin | Hd].
    - eauto.
    - rewrite Hd in Ht. destruct Ht. }
  unfold list_find. rewrite (list_find_from_absent i _ t Hno 0). reflexivity.
Qed.

End FindFacts.

(* ================================================================= *)
(** ** Reserving buckets *)

Section ReserveFacts.
Context {T : Type}.
Variable hash : T -> Z.

Lemma reserve_defined (s : unordered_set T) (n c : Z) :
  min_buckets_required s n = Some c ->
  reserve hash s n = Some (rehash hash s c).
Proof. intros H. unfold reserve. now rewrite H. Qed.

Lemma min_buckets_required_100 (s : unordered_set T) :
  maxLoadFactor s = Float32.f0_75 -> min_buckets_required s 100 = Some 134.
Proof.
  intros H. unfold min_buckets_required. rewrite H. vm_compute. reflexivity.
Qed.

(** C8, as amended: after [reserve(n)] the bucket count is the larger of
    the previous count and [(size_t)ceil(n / maxLoadFactor)], the quotient
    being the single-precision one the code computes; the set is left as
    it is when that bound was already met.  In particular [reserve(100)]
    with [maxLoadFactor = 0.75] yields a bucket count of at least 134. *)
Theorem reserve_bucket_count (s : unordered_set T) :
  (forall n c,
      min_buckets_required s n = Some c ->
      exists s',
        reserve hash s n = Some s'
        /\ bucket_count s' = Z.max (bucket_count s) c
        /\ c <= bucket_count s'
        /\ (c <= bucket_count s -> s' = s))
  /\ (maxLoadFactor s = Float32.f0_75 ->
      spec_min_buckets s 100 = Some 134
      /\ exists s', reserve hash s 100 = Some s' /\ 134 <= bucket_count s').
Proof.
  split.
  - intros n c H. exists (rehash hash s c).
    split; [exact (reserve_defined s n c H)|].
    rewrite bucket_count_rehash.
    split; [reflexivity|]. split; [lia|]. apply rehash_noop.
  - intros H.
    split; [unfold spec_min_buckets; rewrite H; vm_compute; reflexivity|].
    exists (rehash hash s 134).
    split; [exact (reserve_defined s 100 134 (min_buckets_required_100 s H))|].
    rewrite bucket_count_rehash. lia.
Qed.

End ReserveFacts.

(* ================================================================= *)
(** ** The operations on [unordered_set<int>] *)

Section IntSetFacts.
Import IntSet.

Local Abbreviation find := (find hash Z.eq_dec).

(** C10: the postfix [++] of both iterator classes leaves the iterator as
    it is and returns an iterator at the same position, whatever the
    position; the prefix forms do advance. *)
Theorem postfix_increment_does_not_advance :
  (forall (it : iterator) (postfix : Z), post_incr it postfix = (it, it))
  /\ (forall (it : local_iterator) (postfix : Z),
        local_post_incr it postfix = (it, it))
  /\ incr (buckets set_0_to_8) (begin_ set_0_to_8) <> begin_ set_0_to_8
  /\ local_incr (buckets set_0_to_8) (local_begin set_0_to_8 0)
     <> local_begin set_0_to_8 0.
Proof.
  repeat split; vm_compute; discriminate.
Qed.

(** C1 at [insert(5)] on the default-constructed set: [5] is absent, and
    after the call bucket [5 % 8] is still empty, [size()] is still [0],
    and the iterator returned is the default-constructed one, which
    designates no element. *)
Theorem insert_absent_value_stores_nothing :
  find default_set 5 = Some (end_ default_set)
  /\ fst (insert default_set 5) = default_set
  /\ nth 5 (buckets (fst (insert default_set 5))) [] = []
  /\ size (fst (insert default_set 5)) = 0
  /\ snd (insert default_set 5) = (iterator_default, true)
  /\ deref (fst (insert default_set 5)) (fst (snd (insert default_set 5)))
     = None.
Proof.
  repeat split.
Qed.

(** C2 at [erase(5)] on a set that holds [5]: the element stays, [size()]
    stays [1], and the iterator returned is the default-constructed one.
    At [erase(5)] on the default-constructed set the iterator returned is
    not equal to [end()]. *)
Theorem erase_removes_nothing :
  erase set_with_5 5 = (set_with_5, iterator_default)
  /\ In 5 (elements (fst (erase set_with_5 5)))
  /\ find (fst (erase set_with_5 5)) 5 = Some (at_element set_with_5 5 0)
  /\ size (fst (erase set_with_5 5)) = 1
  /\ iterator_eqb (snd (erase default_set 5)) (end_ default_set) = false.
Proof.
  repeat split. vm_compute. tauto.
Qed.

(** C3 at the scenario of the nine insertions [0..8] into the
    default-constructed set: afterwards the bucket count is [8] and
    [size()] is [0]. *)
Theorem nine_inserts_do_not_grow :
  bucket_count (insert_all default_set [0; 1; 2; 3; 4; 5; 6; 7; 8]) = 8
  /\ size (insert_all default_set [0; 1; 2; 3; 4; 5; 6; 7; 8]) = 0.
Proof.
  split; reflexivity.
Qed.

(** C4 at the second [insert(5)]: the flag returned is [true] again and
    the iterator is the default-constructed one; the same on a set that
    does hold [5], where [find] gives the position of the stored [5]. *)
Theorem insert_present_value_reports_true :
  snd (insert (fst (insert default_set 5)) 5) = (iterator_default, true)
  /\ find set_with_5 5 = Some (at_element set_with_5 5 0)
  /\ snd (insert set_with_5 5) = (iterator_default, true)
  /\ iterator_eqb (fst (snd (insert set_with_5 5))) (at_element set_with_5 5 0)
     = false.
Proof.
  repeat split.
Qed.

(** C5 at 7 elements in 8 buckets and at 9 elements in 8 buckets:
    [load_factor()] is [0.0] and [1.0], the truncated quotients, and
    neither [0.875] nor [1.125]. *)
Theorem load_factor_truncates :
  size set_0_to_6 = 7 /\ bucket_count set_0_to_6 = 8
  /\ load_factor set_0_to_6 = Some Float32.zero
  /\ Float32.zero <> Float32.f0_875
  /\ size set_0_to_8 = 9 /\ bucket_count set_0_to_8 = 8
  /\ load_factor set_0_to_8 = Some Float32.one
  /\ Float32.one <> Float32.f1_125.
Proof.
  repeat split; vm_compute; discriminate.
Qed.

(** C7 at [insert(5)] followed by [find(5)] on the default-constructed
    set: [find] returns [end()]. *)
Theorem find_after_insert_is_end :
  find (fst (insert default_set 5)) 5 = Some (end_ (fst (insert default_set 5)))
  /\ deref (fst (insert default_set 5)) (end_ (fst (insert default_set 5)))
     = None.
Proof.
  split; reflexivity.
Qed.

(** C8 fails at [reserve(16777217)] on the default-constructed set
    ([maxLoadFactor = 1.0]): [16777217] is not a [float], the quotient is
    [16777216.0], and the bucket count becomes [16777216], one less than
    [ceil(16777217 / 1.0)]. *)
Lemma reserve_below_exact_ceiling :
  exists s' c,
    reserve hash default_set 16777217 = Some s'
    /\ spec_min_buckets default_set 16777217 = Some c
    /\ bucket_count s' < c.
Proof.
  exists (rehash hash default_set 16777216), 16777217.
  assert (M : min_buckets_required default_set 16777217 = Some 16777216)
    by (vm_compute; reflexivity).
  split; [exact (reserve_defined hash default_set _ _ M)|].
  split; [vm_compute; reflexivity|].
  rewrite bucket_count_rehash. vm_compute. reflexivity.
Qed.

(** [rehash_spec] on the set holding [0..8] in 8 buckets. *)
Lemma rehash_spec_witness :
  (8 <= bucket_count set_0_to_8 /\ rehash hash set_0_to_8 8 = set_0_to_8)
  /\ (bucket_count set_0_to_8 < 16
      /\ bucket_count (rehash hash set_0_to_8 16) = 16
      /\ size (rehash hash set_0_to_8 16) = 9).
Proof.
  assert (H1 : 8 <= bucket_count set_0_to_8) by (vm_compute; discriminate).
  assert (H2 : bucket_count set_0_to_8 < 16) by (vm_compute; reflexivity).
  split.
  - split; [exact H1 | exact (proj1 (rehash_spec hash set_0_to_8 8) H1)].
  - destruct (proj2 (rehash_spec hash set_0_to_8 16) H2) as (C & _ & _ & _ & S).
    split; [exact H2|]. split; [exact C|]. exact (eq_trans S eq_refl).
Defined.

(** [incr_state_machine] on the set holding [0..8] and on the set holding
    only [5]. *)
Lemma incr_state_machine_witness :
  incr (buckets set_0_to_8) (at_element set_0_to_8 0 0) = at_element set_0_to_8 0 1
  /\ incr (buckets set_0_to_8) (at_element set_0_to_8 0 1) = at_element set_0_to_8 1 0
  /\ incr (buckets set_with_5) (at_element set_with_5 5 0) = end_ set_with_5
  /\ incr (buckets set_with_5) (end_ set_with_5) = end_ set_with_5.
Proof.
  destruct (incr_state_machine set_0_to_8) as (_ & _ & Hnext & Hskip & _).
  destruct (incr_state_machine set_with_5) as (_ & Hend & _ & _ & Hlast).
  split; [|split; [|split]].
  - apply Hnext; simpl; lia.
  - apply Hskip; simpl; try lia. discriminate.
  - apply Hlast; simpl; try lia.
    intros j Hj.
    destruct j as [|[|[|[|[|[|[|[|j]]]]]]]]; try reflexivity; lia.
  - exact Hend.
Defined.

(** [reserve_bucket_count] at [reserve(100)] with [maxLoadFactor = 0.75]
    on 8 buckets. *)
Lemma reserve_bucket_count_witness :
  min_buckets_required (set_max_load_factor default_set Float32.f0_75) 100
  = Some 134
  /\ exists s',
      reserve hash (set_max_load_factor default_set Float32.f0_75) 100 = Some s'
      /\ bucket_count s' = 134.
Proof.
  assert (M : min_buckets_required
                (set_max_load_factor default_set Float32.f0_75) 100 = Some 134)
    by (vm_compute; reflexivity).
  split; [exact M|].
  destruct (proj1 (reserve_bucket_count hash
                     (set_max_load_factor default_set Float32.f0_75))
                  100 134 M) as (s' & R & C & _).
  exists s'. split; [exact R | exact (eq_trans C eq_refl)].
Defined.

End IntSetFacts.

(* ================================================================= *)
(** ** More on lookup *)

Section MoreFindFacts.
Context {T : Type}.
Variable hash : T -> Z.
Variable T_eq_dec : forall x y : T, {x = y} + {x <> y}.

Lemma list_find_from_first (b : nat) (l : list T) (t : T) :
  forall k0,
    match list_find_from T_eq_dec b k0 l t with
    | LEnd => ~ In t l
    | LAt b' j =>
        b' = b /\ exists k, j = (k0 + k)%nat /\ nth_error l k = Some t
                            /\ forall i, (i < k)%nat -> nth_error l i <> Some t
    end.
Proof.
  induction l as [|x l IH]; intros k0; simpl.
  - tauto.
  - destruct (T_eq_dec x t) as [-> | Hne].
    + split; [reflexivity|]. exists 0%nat.
      repeat split; auto; lia.
    + specialize (IH (S k0)).
      destruct (list_find_from T_eq_dec b (S k0) l t) as [|b' j].
      * intros [E | H]; [congruence | exact (IH H)].
      * destruct IH as (-> & k & -> & Hk & Hfirst).
        split; [reflexivity|]. exists (S k).
        split; [lia|]. split; [exact Hk|].
        intros [|i] Hi; simpl; [congruence | apply Hfirst; lia].
Qed.

Lemma bucket_none (s : unordered_set T) (t : T) :
  bucket hash s t = None <-> bucket_count s = 0.
Proof.
  unfold bucket. destruct (bucket_count s =? 0) eqn:E.
  - apply Z.eqb_eq in E. tauto.
  - apply Z.eqb_neq in E. split; [discriminate | tauto].
Qed.

(** X1: [find] looks into the bucket [hash(t) % bucket_count()] and nowhere
    else: its result is either [end()], and then that bucket holds no [t],
    or the position of the first [t] of that bucket, which dereferences to
    [t] and differs from [end()]. *)
Theorem find_searches_one_bucket (s : unordered_set T) (t : T) (it : iterator) :
  find hash T_eq_dec s t = Some it ->
  let i := Z.to_nat (hash t mod bucket_count s) in
  (it = end_ s /\ ~ In t (nth i (buckets s) []))
  \/ (exists k,
        it = at_element s i k
        /\ nth_error (nth i (buckets s) []) k = Some t
        /\ (forall j, (j < k)%nat -> nth_error (nth i (buckets s) []) j <> Some t)
        /\ deref s it = Some t
        /\ iterator_eqb it (end_ s) = false).
Proof.
  intros H i. unfold find, bucket in H.
  destruct (bucket_count s =? 0); [discriminate|]. fold i in H.
  unfold list_find in H.
  pose proof (list_find_from_first i (nth i (buckets s) []) t 0) as F.
  destruct (list_find_from T_eq_dec i 0 (nth i (buckets s) []) t) as [|b' j];
    simpl in H; injection H as <-.
  - left. auto.
  - right. destruct F as (-> & k & -> & Hk & Hfirst). simpl.
    exists k. repeat split; auto.
    unfold iterator_eqb, at_element, end_. simpl. now rewrite andb_false_r.
Qed.

(** X2: on a set with at least one bucket whose elements all lie in the
    bucket of their hash, [find] decides membership: a stored value is found
    at a position that dereferences to it and differs from [end()], any
    other value gives [end()]. *)
Theorem find_decides_membership (s : unordered_set T) (t : T) :
  0 < bucket_count s ->
  well_placed hash (bucket_count s) (buckets s) ->
  (In t (elements s) ->
   exists it, find hash T_eq_dec s t = Some it
              /\ deref s it = Some t /\ iterator_eqb it (end_ s) = false)
  /\ (~ In t (elements s) -> find hash T_eq_dec s t = Some (end_ s)).
Proof.
  intros Hc Hw. split.
  - intros Hin. destruct (find_present hash T_eq_dec s t Hc Hw Hin) as (k & F & D & N).
    eauto.
  - apply find_absent. exact Hc.
Qed.

(** X3: [bucket(t)] is an index below [bucket_count()], equal to
    [hash(t) % bucket_count()]; it is undefined exactly on a set without
    buckets (a remainder by zero), and so is [find]. *)
Theorem bucket_in_range (s : unordered_set T) (t : T) :
  (bucket hash s t = None <-> bucket_count s = 0)
  /\ (find hash T_eq_dec s t = None <-> bucket_count s = 0)
  /\ (forall i, bucket hash s t = Some i ->
                (i < length (buckets s))%nat
                /\ Z.of_nat i = hash t mod bucket_count s).
Proof.
  split; [apply bucket_none|]. split.
  - rewrite <- (bucket_none s t). unfold find.
    destruct (bucket hash s t) as [i|]; [|tauto].
    split; [|discriminate].
    destruct (negb _); discriminate.
  - intros i H. unfold bucket in H.
    destruct (bucket_count s =? 0) eqn:E; [discriminate|].
    apply Z.eqb_neq in E. injection H as <-.
    assert (Hpos : 0 < bucket_count s) by (unfold bucket_count in *; lia).
    pose proof (Z.mod_pos_bound (hash t) _ Hpos) as B.
    unfold bucket_count in *. lia.
Qed.

End MoreFindFacts.

(* ================================================================= *)
(** ** Traversal from [begin()] to [end()] *)

Section TraversalFacts.
Context {T : Type}.

Lemma concat_nil_nth (l : list (list T)) :
  concat l = [] -> forall j, nth j l [] = [].
Proof.
  induction l as [|b l IH]; intros H j; simpl in H.
  - destruct j; reflexivity.
  - apply app_eq_nil in H. destruct H as [-> H].
    destruct j; simpl; auto.
Qed.
















End TraversalFacts.

Section TraversalTheorems.
Context {T : Type}.





Lemma local_traversal_position (s : unordered_set T) (i : nat) :
  forall k, (k <= length (nth i (buckets s) []))%nat ->
    Nat.iter k (local_incr (buckets s)) (local_begin s i)
    = mk_local_iterator
        (if (k <? length (nth i (buckets s) []))%nat then LAt i k else LEnd).
Proof.
  induction k as [|k IH]; intros Hk.
  - simpl. unfold local_begin. destruct (nth i (buckets s) []); reflexivity.
  - simpl. rewrite IH by lia.
    replace (k <? length (nth i (buckets s) []))%nat with true
      by (symmetry; apply Nat.ltb_lt; lia).
    reflexivity.
Qed.

Lemma local_traversal_stays_at_end (s : unordered_set T) (i : nat) :
  forall k, (length (nth i (buckets s) []) <= k)%nat ->
    Nat.iter k (local_incr (buckets s)) (local_begin s i) = local_end s i.
Proof.
  induction k as [|k IH]; intros Hk.
  - rewrite local_traversal_position by lia.
    replace (0 <? length (nth i (buckets s) []))%nat with false
      by (symmetry; apply Nat.ltb_ge; lia).
    reflexivity.
  - destruct (Nat.eq_dec (length (nth i (buckets s) [])) (S k)) as [E | Hne].
    + rewrite local_traversal_position by lia.
      replace (S k <? length (nth i (buckets s) []))%nat with false
        by (symmetry; apply Nat.ltb_ge; lia).
      reflexivity.
    + simpl. rewrite IH by lia. reflexivity.
Qed.

(** X6: starting from [begin(i)] and applying the prefix [++] of the local
    iterator repeatedly, the iterator dereferences to the elements of
    bucket [i] in order, differs from [end(i)] as long as elements of that
    bucket remain and equals [end(i)] from then on; it never enters
    another bucket. *)
Theorem local_traversal_visits_bucket (s : unordered_set T) (i : nat) :
  (i < length (buckets s))%nat ->
  (forall k, local_deref s (Nat.iter k (local_incr (buckets s)) (local_begin s i))
             = nth_error (nth i (buckets s) []) k)
  /\ (forall k, (k < length (nth i (buckets s) []))%nat ->
        local_iterator_eqb
          (Nat.iter k (local_incr (buckets s)) (local_begin s i))
          (local_end s i) = false)
  /\ (forall k, (length (nth i (buckets s) []) <= k)%nat ->
        Nat.iter k (local_incr (buckets s)) (local_begin s i) = local_end s i).
Proof.
  intros _. split; [|split].
  - intros k.
    destruct (Nat.lt_ge_cases k (length (nth i (buckets s) []))) as [Hk | Hk].
    + rewrite local_traversal_position by lia.
      replace (k <? length (nth i (buckets s) []))%nat with true
        by (symmetry; apply Nat.ltb_lt; lia).
      reflexivity.
    + rewrite (local_traversal_stays_at_end s i k Hk).
      symmetry. now apply nth_error_None.
  - intros k Hk. rewrite local_traversal_position by lia.
    replace (k <? length (nth i (buckets s) []))%nat with true
      by (symmetry; apply Nat.ltb_lt; lia).
    reflexivity.
  - apply local_traversal_stays_at_end.
Qed.

End TraversalTheorems.

(* ================================================================= *)
(** ** Construction, [clear], and more on [rehash] and [reserve] *)

Section ContentFacts.
Context {T : Type}.
Variable hash : T -> Z.
Variable T_eq_dec : forall x y : T, {x = y} + {x <> y}.

Lemma concat_map_nil {A : Type} (l : list A) :
  concat (map (fun _ => @nil T) l) = [].
Proof. induction l; simpl; auto. Qed.


Lemma well_placed_no_element (n : Z) (v : list (list T)) :
  concat v = [] -> well_placed hash n v.
Proof.
  intros H i b e Hb He. exfalso.
  assert (Hin : In e (concat v)) by (apply in_concat; eauto using nth_error_In).
  rewrite H in Hin. destruct Hin.
Qed.



Lemma push_back_at_nth (v : list (list T)) (x : T) :
  forall i j, (i < length v)%nat ->
    nth j (push_back_at v i x) []
    = if Nat.eqb j i then nth j v [] ++ [x] else nth j v [].
Proof.
  induction v as [|b v IH]; intros i j Hi; simpl in Hi; [lia|].
  destruct i as [|i], j as [|j]; simpl; auto.
  apply IH. lia.
Qed.

Lemma rehash_fold_nth (n : Z) (l : list T) :
  0 < n ->
  forall v : list (list T),
    length v = Z.to_nat n ->
    forall i, (i < length v)%nat ->
      nth i (fold_left (rehash_step hash n) l v) []
      = nth i v [] ++ filter (fun e => hash e mod n =? Z.of_nat i) l.
Proof.
  intros Hn. induction l as [|x l IH]; intros v Hlen i Hi; simpl.
  - now rewrite app_nil_r.
  - pose proof (rehash_index_bound hash n x Hn) as Hx.
    pose proof (Z.mod_pos_bound (hash x) n Hn) as Hm.
    rewrite IH.
    + unfold rehash_step. rewrite push_back_at_nth by lia.
      destruct (Nat.eqb_spec i (Z.to_nat (hash x mod n))) as [E1 | E1];
        destruct (Z.eqb_spec (hash x mod n) (Z.of_nat i)) as [E2 | E2];
        try lia; cbv iota.
      * now rewrite <- app_assoc.
      * reflexivity.
    + unfold rehash_step. now rewrite push_back_at_length.
    + unfold rehash_step. now rewrite push_back_at_length.
Qed.

(** X9: after [rehash(n)] with [n > bucket_count()], bucket [i] holds
    exactly the elements whose hash is [i] modulo [n], in the order in
    which the traversal of the old set met them. *)
Theorem rehash_bucket_contents (s : unordered_set T) (n : Z) (i : nat) :
  bucket_count s < n ->
  Z.of_nat i < n ->
  nth i (buckets (rehash hash s n)) []
  = filter (fun e => hash e mod n =? Z.of_nat i) (elements s).
Proof.
  intros H Hi.
  assert (Hn : 0 < n) by (unfold bucket_count in H; lia).
  unfold rehash. apply Z.leb_gt in H. rewrite H. simpl.
  rewrite fold_left_buckets.
  rewrite rehash_fold_nth; try assumption.
  - now rewrite nth_repeat.
  - apply repeat_length.
  - rewrite repeat_length. lia.
Qed.

(** X10: after [rehash(n)] with [n > bucket_count()], [find] decides
    membership whatever the buckets the elements were in before: a value
    stored before the call is found at a position that dereferences to it,
    and any other value gives [end()]. *)
Theorem find_after_rehash (s : unordered_set T) (n : Z) (t : T) :
  bucket_count s < n ->
  (In t (elements s) ->
   exists it, find hash T_eq_dec (rehash hash s n) t = Some it
              /\ deref (rehash hash s n) it = Some t
              /\ iterator_eqb it (end_ (rehash hash s n)) = false)
  /\ (~ In t (elements s) ->
      find hash T_eq_dec (rehash hash s n) t = Some (end_ (rehash hash s n))).
Proof.
  intros H. destruct (rehash_grow hash s n H) as (C & W & P & _).
  assert (Hn : 0 < bucket_count (rehash hash s n))
    by (rewrite C; unfold bucket_count in H; lia).
  split.
  - intros Hin.
    destruct (find_present hash T_eq_dec (rehash hash s n) t Hn) as (k & F & D & N).
    + now rewrite C.
    + eapply Permutation_in; eauto.
    + eauto.
  - intros Hout. apply find_absent; [exact Hn|].
    intros Hin. apply Hout. eapply Permutation_in; [symmetry|]; eauto.
Qed.

Lemma rehash_keeps_placement (s : unordered_set T) (n : Z) :
  well_placed hash (bucket_count s) (buckets s) ->
  well_placed hash (bucket_count (rehash hash s n)) (buckets (rehash hash s n)).
Proof.
  intros Hw. destruct (Z.le_gt_cases n (bucket_count s)) as [H | H].
  - now rewrite rehash_noop.
  - destruct (rehash_grow hash s n H) as (C & W & _). now rewrite C.
Qed.

Lemma rehash_keeps_contents (s : unordered_set T) (n : Z) :
  Permutation (elements s) (elements (rehash hash s n))
  /\ numElements (rehash hash s n) = numElements s
  /\ maxLoadFactor (rehash hash s n) = maxLoadFactor s.
Proof.
  destruct (Z.le_gt_cases n (bucket_count s)) as [H | H].
  - rewrite rehash_noop by assumption. auto.
  - destruct (rehash_grow hash s n H) as (_ & _ & P & N & M). auto.
Qed.

(** X11: the placement invariant "every element lies in the bucket
    [hash(e) % bucket_count()]" is kept by [rehash] with any argument, by
    [reserve] and by [max_load_factor(m)], and it holds after [clear()]. *)
Theorem placement_invariant_kept (s : unordered_set T) :
  well_placed hash (bucket_count s) (buckets s) ->
  (forall n, well_placed hash (bucket_count (rehash hash s n))
                         (buckets (rehash hash s n)))
  /\ (forall n s', reserve hash s n = Some s' ->
                   well_placed hash (bucket_count s') (buckets s'))
  /\ (forall m, well_placed hash (bucket_count (set_max_load_factor s m))
                            (buckets (set_max_load_factor s m)))
  /\ well_placed hash (bucket_count (clear s)) (buckets (clear s)).
Proof.
  intros Hw. repeat split.
  - intros n. now apply rehash_keeps_placement.
  - intros n s' H. unfold reserve in H.
    destruct (min_buckets_required s n) as [c|]; [|discriminate].
    injection H as <-. now apply rehash_keeps_placement.
  - intros m. exact Hw.
  - apply well_placed_no_element. apply concat_map_nil.
Qed.

(** X12: [rehash] never lowers the bucket count, and once a set has been
    rehashed to [n], a further [rehash(m)] with [m] not above the count
    reached changes nothing; in particular [rehash(n)] twice is [rehash(n)]
    once. *)
Theorem rehash_never_shrinks (s : unordered_set T) (n : Z) :
  bucket_count s <= bucket_count (rehash hash s n)
  /\ n <= bucket_count (rehash hash s n)
  /\ (forall m, m <= Z.max (bucket_count s) n ->
                rehash hash (rehash hash s n) m = rehash hash s n)
  /\ rehash hash (rehash hash s n) n = rehash hash s n.
Proof.
  pose proof (bucket_count_rehash hash s n) as C.
  repeat split; try lia.
  - intros m Hm. apply rehash_noop. lia.
  - apply rehash_noop. lia.
Qed.

(** X13: when the bucket count asked for is defined, [reserve(n)] keeps
    the elements (as a multiset), [size()] and [maxLoadFactor], and does
    not lower the bucket count; when the cast in [min_buckets_required] is
    undefined, so is [reserve]. *)
Theorem reserve_keeps_contents (s : unordered_set T) (n : Z) :
  (forall c, min_buckets_required s n = Some c ->
     exists s',
       reserve hash s n = Some s'
       /\ Permutation (elements s) (elements s')
       /\ size s' = size s
       /\ maxLoadFactor s' = maxLoadFactor s
       /\ bucket_count s <= bucket_count s')
  /\ (min_buckets_required s n = None -> reserve hash s n = None).
Proof.
  split.
  - intros c H. exists (rehash hash s c).
    destruct (rehash_keeps_contents s c) as (P & N & M).
    pose proof (bucket_count_rehash hash s c) as C.
    repeat split; auto.
    + now apply reserve_defined.
    + unfold size. now rewrite N.
    + lia.
  - intros H. unfold reserve. now rewrite H.
Qed.

Lemma insert_all_unchanged (s : unordered_set T) (l : list T) :
  insert_all s l = s.
Proof.
  unfold insert_all. revert s. induction l as [|x l IH]; intros s; simpl; auto.
Qed.

(** X14: assigning an initializer list: the former elements are dropped,
    the bucket count becomes the larger of the former one and
    [min_buckets_required(il.size())], [maxLoadFactor] is kept; with the
    body of [insert] in force the resulting set holds no element and its
    size is zero, whatever the list. *)
Theorem assign_list_result (s : unordered_set T) (il : list T) (c : Z) :
  min_buckets_required s (Z.of_nat (length il)) = Some c ->
  exists s',
    assign_list hash s il = Some s'
    /\ bucket_count s' = Z.max (bucket_count s) c
    /\ maxLoadFactor s' = maxLoadFactor s
    /\ elements s' = []
    /\ size s' = 0.
Proof.
  intros H. exists (rehash hash (clear s) c).
  assert (H' : min_buckets_required (clear s) (Z.of_nat (length il)) = Some c)
    by exact H.
  destruct (rehash_keeps_contents (clear s) c) as (P & N & M).
  repeat split.
  - unfold assign_list. rewrite (reserve_defined hash _ _ _ H').
    now rewrite insert_all_unchanged.
  - rewrite bucket_count_rehash.
    unfold bucket_count, clear. simpl. now rewrite length_map.
  - exact M.
  - apply Permutation_nil. unfold elements at 1 in P. simpl in P.
    now rewrite concat_map_nil in P.
  - unfold size. rewrite N. reflexivity.
Qed.

End ContentFacts.

(* ================================================================= *)
(** ** Comparing and assigning iterators *)

Lemma list_iterator_eqb_eq (a b : list_iterator) :
  list_iterator_eqb a b = true <-> a = b.
Proof.
  destruct a as [|i k], b as [|j l]; simpl; split; intros H;
    try congruence; try discriminate.
  - apply andb_true_iff in H. destruct H as [H1 H2].
    apply Nat.eqb_eq in H1, H2. now subst.
  - injection H as -> ->. now rewrite !Nat.eqb_refl.
Qed.

(** X15: two global iterators compare equal with [==] exactly when their
    three members coincide; [!=] is the negation of [==]; and [operator=]
    makes the left side equal to the right side. *)
Theorem iterator_comparison_consistent :
  (forall a b, iterator_eqb a b = true <-> a = b)
  /\ (forall a b, iterator_neqb a b = negb (iterator_eqb a b))
  /\ (forall this rhs, iterator_assign this rhs = rhs
                       /\ iterator_eqb (iterator_assign this rhs) rhs = true).
Proof.
  assert (R : forall a b, iterator_eqb a b = true <-> a = b).
  { intros [ae av al] [be bv bl]. unfold iterator_eqb. simpl.
    rewrite !andb_true_iff, !vector_iterator_eqb_eq,
      list_iterator_eqb_eq.
    split.
    - intros [[-> ->] ->]. reflexivity.
    - intros H. injection H as -> -> ->. auto. }
  split; [exact R|]. split.
  - intros a b. unfold iterator_neqb, iterator_eqb,
      vector_iterator_neqb, list_iterator_neqb.
    now rewrite !negb_andb.
  - intros this [e v l]. split; [reflexivity|]. now apply R.
Qed.

(** X16: two local iterators compare equal with [==] exactly when they
    designate the same position; [!=] is the negation of [==]; and
    [operator=], which assigns only when the positions differ, always makes
    the left side equal to the right side. *)
Theorem local_iterator_comparison_consistent :
  (forall a b, local_iterator_eqb a b = true <-> a = b)
  /\ (forall a b, local_iterator_neqb a b = negb (local_iterator_eqb a b))
  /\ (forall this rhs, local_iterator_assign this rhs = rhs).
Proof.
  assert (R : forall a b, local_iterator_eqb a b = true <-> a = b).
  { intros [a] [b]. unfold local_iterator_eqb. simpl.
    rewrite list_iterator_eqb_eq. split; intros H; congruence. }
  split; [exact R|]. split.
  - reflexivity.
  - intros [a] [b]. unfold local_iterator_assign, list_iterator_neqb. simpl.
    destruct (list_iterator_eqb b a) eqn:E; simpl; [|reflexivity].
    apply list_iterator_eqb_eq in E. now subst.
Qed.

(* ================================================================= *)
(** ** Exactness of the bucket count computed for a load factor of 1.0 *)

Section Float32Facts.

Lemma digits2_pos_lower (p : positive) :
  2 ^ (Z.pos (digits2_pos p) - 1) <= Z.pos p.
Proof.
  induction p as [p IH | p IH |]; simpl digits2_pos.
  - rewrite Pos2Z.inj_succ.
    replace (Z.succ (Z.pos (digits2_pos p)) - 1)
      with (Z.succ (Z.pos (digits2_pos p) - 1)) by lia.
    rewrite Z.pow_succ_r by lia. lia.
  - rewrite Pos2Z.inj_succ.
    replace (Z.succ (Z.pos (digits2_pos p)) - 1)
      with (Z.succ (Z.pos (digits2_pos p) - 1)) by lia.
    rewrite Z.pow_succ_r by lia. lia.
  - simpl. lia.
Qed.

Lemma digits2_pos_upper (p : positive) :
  Z.pos p < 2 ^ Z.pos (digits2_pos p).
Proof.
  induction p as [p IH | p IH |]; simpl digits2_pos.
  - rewrite Pos2Z.inj_succ, Z.pow_succ_r by lia. lia.
  - rewrite Pos2Z.inj_succ, Z.pow_succ_r by lia. lia.
  - simpl. lia.
Qed.

Lemma digits2_pos_bound (p : positive) :
  Z.pos p < 2 ^ 24 -> Z.pos (digits2_pos p) <= 24.
Proof.
  intros H. pose proof (digits2_pos_lower p) as L.
  destruct (Z.le_gt_cases (Z.pos (digits2_pos p)) 24) as [|G]; [assumption|].
  exfalso.
  assert (2 ^ 24 <= 2 ^ (Z.pos (digits2_pos p) - 1))
    by (apply Z.pow_le_mono_r; lia).
  lia.
Qed.

Lemma iter_xO_spec (p k : positive) :
  Z.pos (digits2_pos (Pos.iter xO p k)) = Z.pos (digits2_pos p) + Z.pos k
  /\ Z.pos (Pos.iter xO p k) = Z.pos p * 2 ^ Z.pos k.
Proof.
  apply (Pos.iter_ind _ xO p
    (fun k a => Z.pos (digits2_pos a) = Z.pos (digits2_pos p) + Z.pos k
                /\ Z.pos a = Z.pos p * 2 ^ Z.pos k)).
  - simpl digits2_pos. rewrite Pos2Z.inj_succ. split; lia.
  - intros q a [Hd Hv]. simpl digits2_pos. rewrite !Pos2Z.inj_succ.
    rewrite Z.pow_succ_r by lia. split; lia.
Qed.

(** Rounding a 24-digit mantissa changes nothing. *)
Lemma shr_fexp_exact_noshift (m : positive) (e : Z) :
  Z.pos (digits2_pos m) = 24 -> -149 <= e ->
  shr_fexp 24 128 (Z.pos m) e loc_Exact
  = ({| shr_m := Z.pos m; shr_r := false; shr_s := false |}, e).
Proof.
  intros Hd He. unfold shr_fexp. simpl Zdigits2. rewrite Hd.
  unfold fexp, emin.
  replace (Z.max (24 + e - 24) (3 - 128 - 24) - e) with 0 by lia.
  reflexivity.
Qed.

Lemma round_normal (m : positive) (e : Z) :
  Z.pos (digits2_pos m) = 24 -> -149 <= e <= 104 ->
  binary_round_aux 24 128 false (Z.pos m) e loc_Exact = S754_finite false m e.
Proof.
  intros Hd He. unfold binary_round_aux.
  rewrite shr_fexp_exact_noshift by lia. simpl shr_m. simpl loc_of_shr_record.
  simpl round_nearest_even.
  rewrite shr_fexp_exact_noshift by lia. simpl shr_m.
  replace (e <=? 128 - 24) with true; [reflexivity|].
  symmetry. apply Z.leb_le. lia.
Qed.

(** An integer of at most 24 binary digits converts to [float] exactly. *)
Lemma of_Z_normal (p : positive) :
  Z.pos (digits2_pos p) <= 24 ->
  exists m,
    Float32.of_Z (Z.pos p) = S754_finite false m (Z.pos (digits2_pos p) - 24)
    /\ Z.pos (digits2_pos m) = 24
    /\ Z.pos m = Z.pos p * 2 ^ (24 - Z.pos (digits2_pos p)).
Proof.
  intros Hd. unfold Float32.of_Z, binary_normalize, binary_round, shl_align.
  unfold fexp, emin, Float32.prec, Float32.emax.
  replace (Z.max (Z.pos (digits2_pos p) + 0 - 24) (3 - 128 - 24) - 0)
    with (Z.pos (digits2_pos p) - 24) by lia.
  replace (Z.max (Z.pos (digits2_pos p) + 0 - 24) (3 - 128 - 24))
    with (Z.pos (digits2_pos p) - 24) by lia.
  destruct (Z.pos (digits2_pos p) - 24) as [|k|k] eqn:E; try lia.
  - exists p. rewrite round_normal by lia.
    replace (24 - Z.pos (digits2_pos p)) with 0 by lia.
    rewrite Z.pow_0_r. repeat split; lia.
  - destruct (iter_xO_spec p k) as [Hdk Hvk].
    exists (Pos.iter xO p k). rewrite round_normal by lia.
    replace (24 - Z.pos (digits2_pos p)) with (Z.pos k) by lia.
    repeat split; lia.
Qed.

Lemma div_eucl_pair (a b : Z) : Z.div_eucl a b = (a / b, a mod b).
Proof. unfold Z.div, Z.modulo. now destruct (Z.div_eucl a b). Qed.

(** Dividing such a float by [1.0] gives it back. *)
Lemma div_by_one (m : positive) (e : Z) :
  Z.pos (digits2_pos m) = 24 -> -23 <= e <= 0 ->
  Float32.div (S754_finite false m e) Float32.one = S754_finite false m e.
Proof.
  intros Hd He.
  change Float32.one with (S754_finite false 8388608 (-23)).
  unfold Float32.div, SFdiv, SFdiv_core_binary, Float32.prec, Float32.emax.
  change (Zdigits2 (Z.pos 8388608)) with 24.
  change (Zdigits2 (Z.pos m)) with (Z.pos (digits2_pos m)). rewrite Hd.
  unfold fexp, emin.
  replace (Z.min (Z.max (24 + e - (24 + -23) - 24) (3 - 128 - 24)) (e - -23))
    with (e - 1) by lia.
  replace (e - -23 - (e - 1)) with 24 by lia.
  rewrite div_eucl_pair.
  rewrite Z.shiftl_mul_pow2 by lia.
  replace (Z.pos m * 2 ^ 24) with (Z.pos m~0 * 8388608) by lia.
  rewrite Z.div_mul, Z.mod_mul by lia.
  change (new_location 8388608 0) with loc_Exact.
  cbv beta iota zeta. unfold binary_round_aux.
  assert (S1 : shr_fexp 24 128 (Z.pos m~0) (e - 1) loc_Exact
               = ({| shr_m := Z.pos m; shr_r := false; shr_s := false |}, e)).
  { unfold shr_fexp. simpl Zdigits2. rewrite Pos2Z.inj_succ, Hd.
    unfold fexp, emin.
    replace (Z.max (Z.succ 24 + (e - 1) - 24) (3 - 128 - 24) - (e - 1))
      with 1 by lia.
    simpl. f_equal. lia. }
  rewrite S1. simpl shr_m. simpl loc_of_shr_record. simpl round_nearest_even.
  rewrite shr_fexp_exact_noshift by lia. simpl shr_m.
  replace (e <=? 128 - 24) with true; [reflexivity|].
  symmetry. apply Z.leb_le. lia.
Qed.

(** The chain conversion, division by [1.0], [ceil], cast is the identity
    on the integers of at most 24 binary digits. *)
Lemma size_t_through_float (p : positive) :
  Z.pos (digits2_pos p) <= 24 ->
  Float32.to_size_t
    (Float32.ceil (Float32.div (Float32.of_Z (Z.pos p)) Float32.one))
  = Some (Z.pos p).
Proof.
  intros Hd.
  pose proof (digits2_pos_lower p) as Hlow.
  destruct (of_Z_normal p Hd) as (m & E & Hm & Hv).
  assert (Hdpos : 0 < Z.pos (digits2_pos p)) by lia.
  rewrite E, div_by_one by lia.
  set (e := Z.pos (digits2_pos p) - 24) in *.
  assert (Hpow : 0 < 2 ^ (- e)) by (apply Z.pow_pos_nonneg; lia).
  assert (Hv' : Z.pos m = Z.pos p * 2 ^ (- e))
    by (rewrite Hv; f_equal; f_equal; lia).
  assert (Hsmall : Z.pos p < 2 ^ 64).
  { assert (Z.pos p * 1 <= Z.pos p * 2 ^ (- e)) by (apply Z.mul_le_mono_nonneg_l; lia).
    pose proof (digits2_pos_upper m) as Um. rewrite Hm in Um.
    assert (2 ^ 24 < 2 ^ 64) by (apply Z.pow_lt_mono_r; lia).
    lia. }
  unfold Float32.ceil.
  destruct (0 <=? e) eqn:E0.
  - assert (He0 : e = 0) by (apply Z.leb_le in E0; lia).
    unfold Float32.to_size_t, Float32.trunc. fold e. rewrite E0.
    replace (Z.pos m * 2 ^ e) with (Z.pos p)
      by (rewrite Hv'; replace (- e) with 0 by lia; replace e with 0 by lia;
          rewrite Z.pow_0_r; lia).
    replace ((0 <=? Z.pos p) && (Z.pos p <? 2 ^ 64)) with true; [reflexivity|].
    symmetry. apply andb_true_iff. split; [apply Z.leb_le | apply Z.ltb_lt]; lia.
  - cbv zeta. rewrite Hv', Z.div_mul, Z.mod_mul by lia.
    change (0 =? 0) with true. cbv iota.
    change (binary_normalize Float32.prec Float32.emax (Z.pos p) 0 false)
      with (Float32.of_Z (Z.pos p)).
    rewrite E.
    unfold Float32.to_size_t, Float32.trunc. fold e. rewrite E0.
    rewrite Hv', Z.div_mul by lia.
    replace ((0 <=? Z.pos p) && (Z.pos p <? 2 ^ 64)) with true; [reflexivity|].
    symmetry. apply andb_true_iff. split; [apply Z.leb_le | apply Z.ltb_lt]; lia.
Qed.

End Float32Facts.

Section ReserveExactFacts.
Context {T : Type}.
Variable hash : T -> Z.

(** X17: with [maxLoadFactor = 1.0] and [n <= 2^24 = 16777216], the count
    computed by [min_buckets_required(n)] is [n] itself, so that
    [reserve(n)] brings the bucket count to the larger of [n] and the
    former count. *)
Theorem reserve_exact_up_to_2_24 (s : unordered_set T) (n : Z) :
  maxLoadFactor s = Float32.one ->
  0 <= n <= 2 ^ 24 ->
  min_buckets_required s n = Some n
  /\ exists s',
      reserve hash s n = Some s'
      /\ bucket_count s' = Z.max (bucket_count s) n
      /\ n <= bucket_count s'.
Proof.
  intros Hm Hn.
  assert (M : min_buckets_required s n = Some n).
  { unfold min_buckets_required. rewrite Hm.
    destruct n as [|p|p]; [vm_compute; reflexivity | | lia].
    destruct (Z.eq_dec (Z.pos p) (2 ^ 24)) as [E | Hne].
    - rewrite E. vm_compute. reflexivity.
    - apply size_t_through_float. apply digits2_pos_bound. lia. }
  split; [exact M|].
  exists (rehash hash s n).
  split; [exact (reserve_defined hash s n n M)|].
  rewrite bucket_count_rehash. lia.
Qed.

End ReserveExactFacts.

(* ================================================================= *)
(** ** The further properties on [unordered_set<int>] *)

Section IntSetMoreFacts.
Import IntSet.

Local Abbreviation find := (find hash Z.eq_dec).

Lemma set_with_5_well_placed :
  well_placed hash (bucket_count set_with_5) (buckets set_with_5).
Proof.
  intros i b e Hb He.
  do 8 (destruct i as [|i];
        [simpl in Hb; injection Hb as <-; simpl in He;
         repeat (destruct He as [<- | He]; [reflexivity|]); destruct He|]).
  simpl in Hb. destruct i; discriminate Hb.
Defined.

Lemma find_searches_one_bucket_witness :
  find set_with_5 5 = Some (at_element set_with_5 5 0)
  /\ ((at_element set_with_5 5 0 = end_ set_with_5
       /\ ~ In 5 (nth 5 (buckets set_with_5) []))
      \/ exists k,
          at_element set_with_5 5 0 = at_element set_with_5 5 k
          /\ nth_error (nth 5 (buckets set_with_5) []) k = Some 5
          /\ (forall j, (j < k)%nat ->
                        nth_error (nth 5 (buckets set_with_5) []) j <> Some 5)
          /\ deref set_with_5 (at_element set_with_5 5 0) = Some 5
          /\ iterator_eqb (at_element set_with_5 5 0) (end_ set_with_5) = false).
Proof.
  split; [reflexivity|].
  exact (find_searches_one_bucket hash Z.eq_dec set_with_5 5
           (at_element set_with_5 5 0) eq_refl).
Defined.

Lemma find_decides_membership_witness :
  0 < bucket_count set_with_5
  /\ (exists it, find set_with_5 5 = Some it
                 /\ deref set_with_5 it = Some 5
                 /\ iterator_eqb it (end_ set_with_5) = false)
  /\ find set_with_5 13 = Some (end_ set_with_5).
Proof.
  assert (Hc : 0 < bucket_count set_with_5) by reflexivity.
  destruct (find_decides_membership hash Z.eq_dec set_with_5 5 Hc
              set_with_5_well_placed) as [Hin _].
  destruct (find_decides_membership hash Z.eq_dec set_with_5 13 Hc
              set_with_5_well_placed) as [_ Hout].
  split; [exact Hc|]. split.
  - apply Hin. simpl. auto.
  - apply Hout. simpl. intros [H | []]. discriminate H.
Defined.

Lemma bucket_in_range_witness :
  bucket hash set_with_5 13 = Some 5%nat
  /\ (5 < length (buckets set_with_5))%nat
  /\ bucket hash (make 0) 13 = None.
Proof.
  destruct (bucket_in_range hash Z.eq_dec set_with_5 13) as (_ & _ & R).
  destruct (bucket_in_range hash Z.eq_dec (make 0) 13) as (N & _ & _).
  split; [reflexivity|]. split.
  - exact (proj1 (R 5%nat eq_refl)).
  - apply N. reflexivity.
Defined.



Lemma local_traversal_visits_bucket_witness :
  local_deref set_0_to_8
    (Nat.iter 1 (local_incr (buckets set_0_to_8)) (local_begin set_0_to_8 0))
  = Some 8
  /\ Nat.iter 2 (local_incr (buckets set_0_to_8)) (local_begin set_0_to_8 0)
     = local_end set_0_to_8 0.
Proof.
  assert (H : (0 < length (buckets set_0_to_8))%nat) by (simpl; lia).
  destruct (local_traversal_visits_bucket set_0_to_8 0 H) as (D & _ & E).
  split; [exact (eq_trans (D 1%nat) eq_refl)|].
  apply E. simpl. lia.
Defined.



Lemma rehash_bucket_contents_witness :
  nth 0 (buckets (rehash hash set_0_to_8 16)) [] = [0]
  /\ nth 8 (buckets (rehash hash set_0_to_8 16)) [] = [8].
Proof.
  assert (H : bucket_count set_0_to_8 < 16) by reflexivity.
  split.
  - exact (eq_trans (rehash_bucket_contents hash set_0_to_8 16 0 H eq_refl) eq_refl).
  - exact (eq_trans (rehash_bucket_contents hash set_0_to_8 16 8 H eq_refl) eq_refl).
Defined.

Lemma find_after_rehash_witness :
  (exists it, find (rehash hash set_0_to_8 16) 8 = Some it
              /\ deref (rehash hash set_0_to_8 16) it = Some 8
              /\ iterator_eqb it (end_ (rehash hash set_0_to_8 16)) = false)
  /\ find (rehash hash set_0_to_8 16) 24 = Some (end_ (rehash hash set_0_to_8 16)).
Proof.
  assert (H : bucket_count set_0_to_8 < 16) by reflexivity.
  split.
  - apply (proj1 (find_after_rehash hash Z.eq_dec set_0_to_8 16 8 H)).
    simpl. tauto.
  - apply (proj2 (find_after_rehash hash Z.eq_dec set_0_to_8 16 24 H)).
    simpl. intros F.
    repeat (destruct F as [F | F]; [discriminate F|]). exact F.
Defined.

Lemma placement_invariant_kept_witness :
  well_placed hash (bucket_count (rehash hash set_with_5 16))
              (buckets (rehash hash set_with_5 16))
  /\ well_placed hash (bucket_count (clear set_with_5))
                 (buckets (clear set_with_5)).
Proof.
  destruct (placement_invariant_kept hash set_with_5 set_with_5_well_placed)
    as (R & _ & _ & C).
  split; [exact (R 16) | exact C].
Defined.

Lemma rehash_never_shrinks_witness :
  8 <= bucket_count (rehash hash set_0_to_8 4)
  /\ rehash hash (rehash hash set_0_to_8 16) 12 = rehash hash set_0_to_8 16.
Proof.
  destruct (rehash_never_shrinks hash set_0_to_8 4) as (L & _).
  destruct (rehash_never_shrinks hash set_0_to_8 16) as (_ & _ & I & _).
  split; [exact L|]. apply I. simpl. lia.
Defined.

Lemma reserve_keeps_contents_witness :
  exists s',
    reserve hash set_0_to_8 12 = Some s'
    /\ Permutation (elements set_0_to_8) (elements s')
    /\ size s' = 9.
Proof.
  assert (M : min_buckets_required set_0_to_8 12 = Some 12)
    by (vm_compute; reflexivity).
  destruct (proj1 (reserve_keeps_contents hash set_0_to_8 12) 12 M)
    as (s' & R & P & S & _).
  exists s'. split; [exact R|]. split; [exact P|]. exact (eq_trans S eq_refl).
Defined.

Lemma assign_list_result_witness :
  exists s',
    assign_list hash set_0_to_8 [1; 2; 3] = Some s'
    /\ bucket_count s' = 8
    /\ elements s' = []
    /\ size s' = 0.
Proof.
  assert (M : min_buckets_required set_0_to_8 (Z.of_nat (length [1; 2; 3]))
              = Some 3) by (vm_compute; reflexivity).
  destruct (assign_list_result hash set_0_to_8 [1; 2; 3] 3 M)
    as (s' & A & C & _ & E & S).
  exists s'. split; [exact A|]. split; [exact (eq_trans C eq_refl)|].
  split; [exact E | exact S].
Defined.

Lemma iterator_comparison_consistent_witness :
  iterator_eqb (end_ set_with_5) (end_ set_with_5) = true
  /\ iterator_neqb (begin_ set_with_5) (end_ set_with_5) = true.
Proof.
  destruct iterator_comparison_consistent as (R & N & _).
  split.
  - apply (proj2 (R _ _)). reflexivity.
  - rewrite N. reflexivity.
Defined.

Lemma local_iterator_comparison_consistent_witness :
  local_iterator_eqb (local_end set_with_5 5) (local_end set_with_5 5) = true
  /\ local_iterator_assign (local_end set_with_5 5) (local_begin set_with_5 5)
     = local_begin set_with_5 5.
Proof.
  destruct local_iterator_comparison_consistent as (R & _ & A).
  split.
  - apply (proj2 (R _ _)). reflexivity.
  - apply A.
Defined.

Lemma reserve_exact_up_to_2_24_witness :
  min_buckets_required default_set 1000 = Some 1000
  /\ exists s', reserve hash default_set 1000 = Some s'
                /\ bucket_count s' = 1000.
Proof.
  assert (H : 0 <= 1000 <= 2 ^ 24) by (split; vm_compute; discriminate).
  destruct (reserve_exact_up_to_2_24 hash default_set 1000 eq_refl H)
    as (M & s' & R & C & _).
  split; [exact M|]. exists s'. split; [exact R|].
  exact (eq_trans C eq_refl).
Defined.

End IntSetMoreFacts.
